(** * EC-Schnorr multisignature values and aggregator (libCrypto/MultiSig.h)

    A shallow embedding of the value types [CommitSecret], [CommitPoint],
    [Challenge], [Response] and of the static operations of [MultiSig].
    Only the declarations of [MultiSig.h] are available; the bodies of the
    operations are modelled from the specification of the module.  The
    elliptic-curve engine ([Schnorr.h], OpenSSL) is an external collaborator:
    it is a record of operations [Engine], and the group laws it provides
    are collected in [EngineLaws]. *)

From Stdlib Require Import ZArith List Lia Permutation Bool.
From Stdlib Require Import Strings.Byte.
From Stdlib Require Import Zmod.Zmod.
Import ListNotations.
Open Scope Z_scope.

(** ** Bytes and the fixed-width big-endian scalar encoding *)

Definition byte_of_Z (z : Z) : byte :=
  match Byte.of_N (Z.to_N (z mod 256)) with
  | Some b => b
  | None => Byte.x00
  end.

Definition byte_to_Z (b : byte) : Z := Z.of_N (Byte.to_N b).

(** Modelled from the spec: [BIGNUMSerialize]: the scalar written on [w] bytes, most significant
    byte first. *)
Fixpoint be_encode (w : nat) (z : Z) : list byte :=
  match w with
  | O => []
  | S w' => be_encode w' (z / 256) ++ [byte_of_Z z]
  end.

(** Modelled from the spec: [BIGNUMDeserialize]: big-endian bytes back to a non-negative scalar. *)
Definition be_decode (bs : list byte) : Z :=
  fold_left (fun acc b => acc * 256 + byte_to_Z b) bs 0.

(** Modelled from the spec: writing [bs] into [dst] at [offset]; the buffer is grown with zero
    bytes when it is too short, as [Serialize] does with [resize]. *)
Definition write_at (dst : list byte) (offset : nat) (bs : list byte)
  : list byte :=
  let need := (offset + length bs)%nat in
  let dst' := if Nat.ltb (length dst) need
              then dst ++ repeat Byte.x00 (need - length dst)
              else dst in
  firstn offset dst' ++ bs ++ skipn need dst'.

(** Modelled from the spec: reading [w] bytes of [src] at [offset]; [None] when [src] is too short. *)
Definition read_at (src : list byte) (offset w : nat) : option (list byte) :=
  if Nat.ltb (length src) (offset + w) then None
  else Some (firstn w (skipn offset src)).

(** ** The elliptic-curve engine ([Schnorr.h]) *)

Record Engine := mkEngine {
  Point : Type;
  (** group order [n] *)
  order : Z;
  (** generator [G] and the point at infinity *)
  gen : Point;
  infinity : Point;
  padd : Point -> Point -> Point;
  pneg : Point -> Point;
  (** scalar multiplication [k·P] *)
  pmul : Z -> Point -> Point;
  point_eqb : Point -> Point -> bool;
  on_curve : Point -> bool;
  (** canonical fixed-width point encoding *)
  point_width : nat;
  point_encode : Point -> list byte;
  point_decode : list byte -> option Point;
  (** byte width of the group order *)
  scalar_width : nat;
  (** hash of (point ‖ public key ‖ message) *)
  hash_to_scalar : Point -> Point -> list byte -> Z
}.

Arguments gen {_}.
Arguments infinity {_}.
Arguments padd {_}.
Arguments pneg {_}.
Arguments pmul {_}.
Arguments point_eqb {_}.
Arguments on_curve {_}.
Arguments point_encode {_}.
Arguments point_decode {_}.
Arguments hash_to_scalar {_}.

(** What the engine guarantees: an abelian group of points, scalar
    multiplication that is a module action of [Z / nZ], a decidable point
    equality and a canonical encoding of the valid points. *)
Record EngineLaws (E : Engine) : Prop := {
  order_pos : 0 < order E;
  padd_comm : forall P Q : Point E, padd P Q = padd Q P;
  padd_assoc : forall P Q R : Point E, padd P (padd Q R) = padd (padd P Q) R;
  padd_O_l : forall P : Point E, padd infinity P = P;
  padd_neg_r : forall P : Point E, padd P (pneg P) = infinity;
  pmul_add : forall (a b : Z) (P : Point E),
      pmul (a + b) P = padd (pmul a P) (pmul b P);
  pmul_pmul : forall (a b : Z) (P : Point E), pmul a (pmul b P) = pmul (a * b) P;
  pmul_mod : forall (a : Z) (P : Point E), pmul (a mod order E) P = pmul a P;
  point_eqb_spec : forall P Q : Point E, point_eqb P Q = true <-> P = Q;
  point_encode_length : forall P : Point E, length (point_encode P) = point_width E;
  point_decode_encode : forall P : Point E,
      on_curve P = true -> P <> infinity -> point_decode (point_encode P) = Some P;
  scalar_width_fits : order E <= 256 ^ Z.of_nat (scalar_width E)
}.

(** Key material is owned by the engine: a public key is a point, a private
    key a scalar, and [PubKey(PrivKey)] multiplies the generator. *)
Definition PubKey (E : Engine) : Type := Point E.
Definition PrivKey : Type := Z.
Definition PubKey_of_PrivKey {E : Engine} (privkey : PrivKey) : PubKey E :=
  pmul privkey gen.

(** Standard Schnorr signature (challenge, response) of [Schnorr.h]. *)
Record Signature := mkSignature { sig_r : Z; sig_s : Z }.

(** ** [struct CommitSecret] *)
Module CommitSecret.
Record t := mk { m_s : Z; m_initialized : bool }.

Section Ops.
Context (E : Engine).

(** Modelled from the spec: [CommitSecret::Initialized]. *)
Definition Initialized (x : t) : bool := m_initialized x.

(** Modelled from the spec: [CommitSecret::Serialize], the scalar on the
    byte width of the group order, big-endian, at [offset]; returns the
    new buffer and the number of bytes written. *)
Definition Serialize (x : t) (dst : list byte) (offset : nat)
  : list byte * nat :=
  (write_at dst offset (be_encode (scalar_width E) (m_s x)), scalar_width E).

(** Modelled from the spec: [CommitSecret::Deserialize], which checks the
    length and the range [1 <= s < n] and leaves [this] uninitialized on
    failure. *)
Definition Deserialize (self : t) (src : list byte) (offset : nat) : t :=
  match read_at src offset (scalar_width E) with
  | None => mk (m_s self) false
  | Some bs =>
      let s := be_decode bs in
      if (1 <=? s) && (s <? order E) then mk s true else mk (m_s self) false
  end.

(** Modelled from the spec: [CommitSecret(src, offset)]. *)
Definition of_bytes (src : list byte) (offset : nat) : t :=
  Deserialize (mk 0 false) src offset.

(** Modelled from the spec: [operator==] compares the scalars when both
    sides are initialized. *)
Definition eqb (x r : t) : bool :=
  m_initialized x && m_initialized r && (m_s x =? m_s r).

(** Modelled from the spec: the copy constructor gives the copy its own
    payload; assignment overwrites the target with the source's state. *)
Definition copy (src : t) : t := mk (m_s src) (m_initialized src).
(** Modelled from the spec: [operator=] copies [src] into the target. *)
Definition assign (self src : t) : t * t := (copy src, src).
End Ops.
End CommitSecret.

(** ** [struct CommitPoint] *)
Module CommitPoint.
Record t (E : Engine) := mk { m_p : Point E; m_initialized : bool }.
Arguments mk {E}.
Arguments m_p {E}.
Arguments m_initialized {E}.

Section Ops.
Context {E : Engine}.

(** Modelled from the spec: [CommitPoint::Initialized]. *)
Definition Initialized (x : t E) : bool := m_initialized x.

(** Modelled from the spec: [CommitPoint()], uninitialized. *)
Definition uninit : t E := mk infinity false.

(** Modelled from the spec: [CommitPoint(secret)] is [secret·G]; it fails
    when the secret is uninitialized. *)
Definition of_secret (secret : CommitSecret.t) : t E :=
  if CommitSecret.m_initialized secret
  then mk (pmul (CommitSecret.m_s secret) gen) true
  else mk infinity false.

(** Modelled from the spec: [CommitPoint::Set] re-derives the point. *)
Definition Set_ (self : t E) (secret : CommitSecret.t) : t E :=
  of_secret secret.

(** Modelled from the spec: [CommitPoint::Serialize], the engine's
    canonical encoding. *)
Definition Serialize (x : t E) (dst : list byte) (offset : nat)
  : list byte * nat :=
  (write_at dst offset (point_encode (m_p x)), point_width E).

(** Modelled from the spec: [CommitPoint::Deserialize], which checks the
    length, that the point is on the curve and is not the point at
    infinity. *)
Definition Deserialize (self : t E) (src : list byte) (offset : nat) : t E :=
  match read_at src offset (point_width E) with
  | None => mk (m_p self) false
  | Some bs =>
      match point_decode bs with
      | None => mk (m_p self) false
      | Some P =>
          if on_curve P && negb (point_eqb P infinity)
          then mk P true else mk (m_p self) false
      end
  end.

(** Modelled from the spec: [CommitPoint(src, offset)]. *)
Definition of_bytes (src : list byte) (offset : nat) : t E :=
  Deserialize uninit src offset.

(** Modelled from the spec: [operator==] compares the points when both
    sides are initialized. *)
Definition eqb (x r : t E) : bool :=
  m_initialized x && m_initialized r && point_eqb (m_p x) (m_p r).

(** Modelled from the spec: the copy constructor. *)
Definition copy (src : t E) : t E := mk (m_p src) (m_initialized src).
(** Modelled from the spec: [operator=]. *)
Definition assign (self src : t E) : t E * t E := (copy src, src).
End Ops.
End CommitPoint.

(** ** [struct Challenge] *)
Module Challenge.
Record t := mk { m_c : Z; m_initialized : bool }.

Section Ops.
Context (E : Engine).

(** Modelled from the spec: [Challenge::Initialized]. *)
Definition Initialized (x : t) : bool := m_initialized x.

(** Modelled from the spec: [Challenge()], uninitialized. *)
Definition uninit : t := mk 0 false.

(** Modelled from the spec: [Challenge(aggregatedCommit, aggregatedPubkey,
    message)] is the hash of the three inputs reduced modulo [n]; it fails
    when the aggregated commit point is uninitialized or is the point at
    infinity. *)
Definition new (aggregatedCommit : CommitPoint.t E)
    (aggregatedPubkey : PubKey E) (message : list byte) : t :=
  if CommitPoint.m_initialized aggregatedCommit
     && negb (point_eqb (CommitPoint.m_p aggregatedCommit) infinity)
  then mk (hash_to_scalar (CommitPoint.m_p aggregatedCommit)
             aggregatedPubkey message mod order E) true
  else mk 0 false.

(** Modelled from the spec: [Challenge::Set] recomputes and overwrites. *)
Definition Set_ (self : t) (aggregatedCommit : CommitPoint.t E)
    (aggregatedPubkey : PubKey E) (message : list byte) : t :=
  new aggregatedCommit aggregatedPubkey message.

(** Modelled from the spec: [Challenge::Serialize], the scalar on the
    engine's scalar width. *)
Definition Serialize (x : t) (dst : list byte) (offset : nat)
  : list byte * nat :=
  (write_at dst offset (be_encode (scalar_width E) (m_c x)), scalar_width E).

(** Modelled from the spec: [Challenge::Deserialize] checks the length and
    the range [0 <= c < n]. *)
Definition Deserialize (self : t) (src : list byte) (offset : nat) : t :=
  match read_at src offset (scalar_width E) with
  | None => mk (m_c self) false
  | Some bs =>
      let c := be_decode bs in
      if (0 <=? c) && (c <? order E) then mk c true else mk (m_c self) false
  end.

(** Modelled from the spec: [Challenge(src, offset)]. *)
Definition of_bytes (src : list byte) (offset : nat) : t :=
  Deserialize uninit src offset.

(** Modelled from the spec: [operator==] compares the scalars when both
    sides are initialized. *)
Definition eqb (x r : t) : bool :=
  m_initialized x && m_initialized r && (m_c x =? m_c r).

(** Modelled from the spec: the copy constructor. *)
Definition copy (src : t) : t := mk (m_c src) (m_initialized src).
(** Modelled from the spec: [operator=]. *)
Definition assign (self src : t) : t * t := (copy src, src).
End Ops.
End Challenge.

(** ** [struct Response] *)
Module Response.
Record t := mk { m_r : Z; m_initialized : bool }.

Section Ops.
Context (E : Engine).

(** Modelled from the spec: [Response::Initialized]. *)
Definition Initialized (x : t) : bool := m_initialized x.

(** Modelled from the spec: [Response()], uninitialized. *)
Definition uninit : t := mk 0 false.

(** Modelled from the spec: [Response(secret, challenge, privkey)] is
    [(s + c * privkey) mod n]; it fails when an operand is uninitialized. *)
Definition new (secret : CommitSecret.t) (challenge : Challenge.t)
    (privkey : PrivKey) : t :=
  if CommitSecret.m_initialized secret && Challenge.m_initialized challenge
  then mk ((CommitSecret.m_s secret + Challenge.m_c challenge * privkey)
             mod order E) true
  else mk 0 false.

(** Modelled from the spec: [Response::Set] recomputes and overwrites. *)
Definition Set_ (self : t) (secret : CommitSecret.t) (challenge : Challenge.t)
    (privkey : PrivKey) : t :=
  new secret challenge privkey.

(** Modelled from the spec: [Response::Serialize], the scalar on the
    engine's scalar width. *)
Definition Serialize (x : t) (dst : list byte) (offset : nat)
  : list byte * nat :=
  (write_at dst offset (be_encode (scalar_width E) (m_r x)), scalar_width E).

(** Modelled from the spec: [Response::Deserialize] checks the length and
    the range [0 <= r < n]. *)
Definition Deserialize (self : t) (src : list byte) (offset : nat) : t :=
  match read_at src offset (scalar_width E) with
  | None => mk (m_r self) false
  | Some bs =>
      let r := be_decode bs in
      if (0 <=? r) && (r <? order E) then mk r true else mk (m_r self) false
  end.

(** Modelled from the spec: [Response(src, offset)]. *)
Definition of_bytes (src : list byte) (offset : nat) : t :=
  Deserialize uninit src offset.

(** Modelled from the spec: [operator==] compares the scalars when both
    sides are initialized. *)
Definition eqb (x r : t) : bool :=
  m_initialized x && m_initialized r && (m_r x =? m_r r).

(** Modelled from the spec: the copy constructor. *)
Definition copy (src : t) : t := mk (m_r src) (m_initialized src).
(** Modelled from the spec: [operator=]. *)
Definition assign (self src : t) : t * t := (copy src, src).
End Ops.
End Response.

(** ** [class MultiSig] *)
Module MultiSig.
Section Ops.
Context (E : Engine).

(** Modelled from the spec: the running point sum of an aggregation: each partial sum is checked
    against the point at infinity. *)
Fixpoint sum_checked (acc : Point E) (points : list (Point E))
  : option (Point E) :=
  match points with
  | [] => Some acc
  | P :: rest =>
      let acc' := padd acc P in
      if point_eqb acc' infinity then None else sum_checked acc' rest
  end.

(** Modelled from the spec: point aggregation fails on an empty input and
    whenever the running sum becomes the point at infinity. *)
Definition aggregate_points (points : list (Point E)) : option (Point E) :=
  match points with
  | [] => None
  | P :: rest => if point_eqb P infinity then None else sum_checked P rest
  end.

(** Modelled from the spec: [MultiSig::AggregatePubKeys]. *)
Definition AggregatePubKeys (pubkeys : list (PubKey E)) : option (PubKey E) :=
  aggregate_points pubkeys.

(** Modelled from the spec: [MultiSig::AggregateCommits]; an uninitialized
    commit point fails the whole aggregation. *)
Definition AggregateCommits (commitPoints : list (CommitPoint.t E))
  : option (CommitPoint.t E) :=
  if forallb CommitPoint.m_initialized commitPoints
  then option_map (fun P => CommitPoint.mk P true)
         (aggregate_points (map CommitPoint.m_p commitPoints))
  else None.

(** Modelled from the spec: [MultiSig::AggregateResponses], the sum of the
    responses modulo [n] (a modular addition per response, starting from
    the first one); fails on an empty input or an uninitialized response. *)
Definition AggregateResponses (responses : list Response.t)
  : option Response.t :=
  match responses with
  | [] => None
  | r0 :: rest =>
      if forallb Response.m_initialized responses
      then Some (Response.mk
                   (fold_left (fun acc r => (acc + Response.m_r r) mod order E)
                      rest (Response.m_r r0))
                   true)
      else None
  end.

(** Modelled from the spec: [MultiSig::AggregateSign] packages the
    challenge and the aggregated response. *)
Definition AggregateSign (challenge : Challenge.t)
    (aggregatedResponse : Response.t) : option Signature :=
  if Challenge.m_initialized challenge
     && Response.m_initialized aggregatedResponse
  then Some (mkSignature (Challenge.m_c challenge)
                         (Response.m_r aggregatedResponse))
  else None.

(** Modelled from the spec: [MultiSig::VerifyResponse] checks
    [response·G == commitPoint + challenge·pubkey]; an uninitialized
    operand gives [false]. *)
Definition VerifyResponse (response : Response.t) (challenge : Challenge.t)
    (pubkey : PubKey E) (commitPoint : CommitPoint.t E) : bool :=
  Response.m_initialized response
  && Challenge.m_initialized challenge
  && CommitPoint.m_initialized commitPoint
  && point_eqb (pmul (Response.m_r response) gen)
               (padd (CommitPoint.m_p commitPoint)
                     (pmul (Challenge.m_c challenge) pubkey)).
End Ops.
End MultiSig.

(** Modelled from the spec: the standalone Schnorr verification equation
    ([Schnorr::Verify]): recompute [R' = s·G - r·pubkey] and accept when the
    hash of [R' ‖ pubkey ‖ message], reduced modulo [n] as for [Challenge],
    is the challenge [r]. *)
Definition SchnorrVerify {E : Engine} (message : list byte) (sig : Signature)
    (pubkey : PubKey E) : bool :=
  let R' := padd (pmul (sig_s sig) gen) (pneg (pmul (sig_r sig) pubkey)) in
  hash_to_scalar R' pubkey message mod order E =? sig_r sig.

(** Signers of a round, each with a private key and a commitment secret;
    they are honest when every secret was generated successfully. *)
Definition honest (signers : list (PrivKey * CommitSecret.t)) : bool :=
  forallb (fun sk => CommitSecret.m_initialized (snd sk)) signers.

(** ** A concrete engine: the cyclic group of order 7

    The additive group [Z/7Z] generated by [1] is isomorphic to every group
    of prime order 7, such as the points of a small curve; points are
    encoded on one byte. *)
Module Z7.
Definition encode (P : Zmod 7) : list byte := [byte_of_Z (Zmod.unsigned P)].

Definition decode (bs : list byte) : option (Zmod 7) :=
  match bs with
  | [b] => if byte_to_Z b <? 7 then Some (Zmod.of_Z 7 (byte_to_Z b)) else None
  | _ => None
  end.

Definition hash (P pk : Zmod 7) (message : list byte) : Z :=
  Zmod.unsigned P + 3 * Zmod.unsigned pk
  + fold_left (fun acc b => acc + byte_to_Z b) message 0.

Definition engine : Engine := {|
  Point := Zmod 7;
  order := 7;
  gen := Zmod.one;
  infinity := Zmod.zero;
  padd := Zmod.add;
  pneg := Zmod.opp;
  pmul := fun k P => Zmod.mul (Zmod.of_Z 7 k) P;
  point_eqb := Zmod.eqb;
  on_curve := fun _ => true;
  point_width := 1;
  point_encode := encode;
  point_decode := decode;
  scalar_width := 1;
  hash_to_scalar := hash
|}.
End Z7.

(** * Properties *)

(** ** Bytes, buffers and the big-endian encoding *)

Lemma byte_to_of_Z (z : Z) : byte_to_Z (byte_of_Z z) = z mod 256.
Proof.
  unfold byte_of_Z, byte_to_Z.
  pose proof (Z.mod_pos_bound z 256 ltac:(lia)) as Hb.
  destruct (Byte.of_N (Z.to_N (z mod 256))) as [b|] eqn:Hof.
  - apply Byte.to_of_N in Hof. rewrite Hof. lia.
  - apply Byte.of_N_None_iff in Hof. lia.
Qed.

Lemma byte_to_Z_range (b : byte) : 0 <= byte_to_Z b < 256.
Proof. unfold byte_to_Z. pose proof (Byte.to_N_bounded b). lia. Qed.

Lemma be_encode_length (w : nat) (z : Z) : length (be_encode w z) = w.
Proof.
  revert z; induction w as [|w IH]; intros z; simpl; [reflexivity|].
  rewrite length_app, IH; simpl; lia.
Qed.

Lemma be_decode_snoc (bs : list byte) (b : byte) :
  be_decode (bs ++ [b]) = be_decode bs * 256 + byte_to_Z b.
Proof. unfold be_decode. now rewrite fold_left_app. Qed.

Lemma be_decode_encode (w : nat) (z : Z) :
  0 <= z < 256 ^ Z.of_nat w -> be_decode (be_encode w z) = z.
Proof.
  revert z; induction w as [|w IH]; intros z Hz.
  - unfold be_decode; simpl in *. lia.
  - simpl. rewrite be_decode_snoc, byte_to_of_Z, IH.
    + pose proof (Z.div_mod z 256 ltac:(lia)). lia.
    + rewrite Nat2Z.inj_succ, Z.pow_succ_r in Hz by lia.
      split; [apply Z.div_pos; lia|].
      apply Z.div_lt_upper_bound; lia.
Qed.

Lemma be_decode_nonneg (bs : list byte) : 0 <= be_decode bs.
Proof.
  unfold be_decode.
  assert (H : forall acc, 0 <= acc ->
    0 <= fold_left (fun acc b => acc * 256 + byte_to_Z b) bs acc).
  { induction bs as [|b bs IH]; intros acc Hacc; simpl; [lia|].
    apply IH. pose proof (byte_to_Z_range b). lia. }
  apply H; lia.
Qed.

Lemma read_write_at (dst : list byte) (offset : nat) (bs : list byte) :
  read_at (write_at dst offset bs) offset (length bs) = Some bs.
Proof.
  unfold read_at, write_at.
  set (dst' := if Nat.ltb (length dst) (offset + length bs)
               then dst ++ repeat Byte.x00 (offset + length bs - length dst)
               else dst).
  assert (Hlen : (offset + length bs <= length dst')%nat).
  { subst dst'. destruct (Nat.ltb_spec (length dst) (offset + length bs)).
    - rewrite length_app, repeat_length. lia.
    - lia. }
  assert (Hfirst : length (firstn offset dst') = offset)
    by (rewrite length_firstn; lia).
  rewrite !length_app, Hfirst.
  destruct (Nat.ltb_spec (offset + (length bs + length (skipn (offset + length bs) dst')))
                         (offset + length bs)); [lia|].
  f_equal.
  assert (Hnil : skipn offset (firstn offset dst') = [])
    by (apply skipn_all2; lia).
  rewrite skipn_app, Hnil, Hfirst, Nat.sub_diag.
  simpl. rewrite firstn_app, Nat.sub_diag, firstn_all. simpl. apply app_nil_r.
Qed.

(** Folding with a step function whose effects commute does not depend on
    the order of the list. *)
Lemma fold_left_permutation {A B : Type} (f : A -> B -> A)
    (Hcomm : forall a x y, f (f a x) y = f (f a y) x) (l l' : list B) :
  Permutation l l' -> forall a, fold_left f l a = fold_left f l' a.
Proof.
  induction 1 as [|x l l' _ IH|x y l|l l' l'' _ IH1 _ IH2]; intros a; simpl.
  - reflexivity.
  - apply IH.
  - now rewrite Hcomm.
  - now rewrite IH1, IH2.
Qed.

Lemma forallb_permutation {A : Type} (p : A -> bool) (l l' : list A) :
  Permutation l l' -> forallb p l = forallb p l'.
Proof.
  intros Hp. apply eq_true_iff_eq. rewrite !forallb_forall. split.
  - intros H x Hx. apply H. now apply Permutation_in with (l := l'); [symmetry|].
  - intros H x Hx. apply H. now apply Permutation_in with (l := l).
Qed.

(** ** The concrete engine satisfies the engine laws *)

Add Ring z7_ring : (Zmod.ring_theory 7).

Lemma Z7_laws : EngineLaws Z7.engine.
Proof.
  split; cbn -[Zmod.add Zmod.mul Zmod.opp Zmod.of_Z Zmod.eqb].
  - lia.
  - intros; ring.
  - intros; ring.
  - intros; ring.
  - intros; ring.
  - intros a b P. rewrite Zmod.of_Z_add. ring.
  - intros a b P. rewrite Zmod.of_Z_mul. ring.
  - intros a P. now rewrite Zmod.of_Z_mod.
  - intros P Q. apply Zmod.eqb_eq.
  - reflexivity.
  - intros P _ _. unfold Z7.decode, Z7.encode.
    pose proof (Zmod.unsigned_range P) as HP.
    rewrite byte_to_of_Z, Z.mod_small by lia.
    destruct (Z.ltb_spec (Zmod.unsigned P) 7); [|lia].
    now rewrite Zmod.of_Z_unsigned.
  - lia.
Qed.

(** ** Running sums of scalars *)

Lemma fold_left_map_comp {A B C : Type} (f : A -> B -> A) (g : C -> B)
    (l : list C) (a : A) :
  fold_left f (map g l) a = fold_left (fun acc x => f acc (g x)) l a.
Proof. revert a; induction l as [|x l IH]; intros a; simpl; auto. Qed.

Lemma fold_plus_linear {A : Type} (f h : A -> Z) (c : Z) (l : list A) (a b : Z) :
  fold_left (fun acc x => acc + (f x + c * h x)) l (a + c * b)
  = fold_left (fun acc x => acc + f x) l a
    + c * fold_left (fun acc x => acc + h x) l b.
Proof.
  revert a b; induction l as [|x l IH]; intros a b; simpl; [reflexivity|].
  rewrite <- IH. f_equal. ring.
Qed.

Section EngineFacts.
Context {E : Engine} (HE : EngineLaws E).

Lemma padd_O_r (P : Point E) : padd P infinity = P.
Proof. rewrite (padd_comm E HE). apply (padd_O_l E HE). Qed.

Lemma pmul_zero (P : Point E) : pmul 0 P = infinity.
Proof.
  set (X := pmul 0 P).
  assert (HX : X = padd X X) by (unfold X; rewrite <- (pmul_add E HE); reflexivity).
  transitivity (padd (padd X X) (pneg X)).
  - rewrite <- (padd_assoc E HE), (padd_neg_r E HE). symmetry. apply padd_O_r.
  - rewrite <- HX. apply (padd_neg_r E HE).
Qed.

Lemma pneg_pmul (a : Z) (P : Point E) : pneg (pmul a P) = pmul (- a) P.
Proof.
  rewrite <- (padd_O_l E HE (pneg (pmul a P))).
  rewrite <- (pmul_zero P).
  replace 0 with (- a + a) by ring.
  rewrite (pmul_add E HE), <- (padd_assoc E HE), (padd_neg_r E HE).
  apply padd_O_r.
Qed.

Lemma pmul_congr (a b : Z) (P : Point E) :
  a mod order E = b mod order E -> pmul a P = pmul b P.
Proof.
  intros H. rewrite <- (pmul_mod E HE a), <- (pmul_mod E HE b). now rewrite H.
Qed.

Lemma point_eqb_refl (P : Point E) : point_eqb P P = true.
Proof. now apply (point_eqb_spec E HE). Qed.

Lemma point_eqb_false (P Q : Point E) : point_eqb P Q = false <-> P <> Q.
Proof.
  rewrite <- (point_eqb_spec E HE). destruct (point_eqb P Q); intuition congruence.
Qed.

(** A sum of multiples of one point is the multiple of the sum. *)
Lemma fold_padd_pmul {A : Type} (f : A -> Z) (P : Point E) (l : list A) (a : Z) :
  fold_left padd (map (fun x => pmul (f x) P) l) (pmul a P)
  = pmul (fold_left (fun acc x => acc + f x) l a) P.
Proof.
  revert a; induction l as [|x l IH]; intros a; simpl; [reflexivity|].
  rewrite <- (pmul_add E HE). apply IH.
Qed.

Lemma pmul_fold_plus_ext {A : Type} (g h : A -> Z) (P : Point E) (l : list A)
    (a b : Z) :
  (forall x, pmul (g x) P = pmul (h x) P) -> pmul a P = pmul b P ->
  pmul (fold_left (fun acc x => acc + g x) l a) P
  = pmul (fold_left (fun acc x => acc + h x) l b) P.
Proof.
  intros Hgh Hab. rewrite <- !fold_padd_pmul, Hab. f_equal. now apply map_ext.
Qed.

(** The modular running sum of [AggregateResponses] has the multiple of
    the plain sum. *)
Lemma pmul_fold_mod {A : Type} (g : A -> Z) (P : Point E) (l : list A) (a : Z) :
  pmul (fold_left (fun acc x => (acc + g x) mod order E) l a) P
  = pmul (fold_left (fun acc x => acc + g x) l a) P.
Proof.
  revert a; induction l as [|x l IH]; intros a; simpl; [reflexivity|].
  rewrite IH. apply pmul_fold_plus_ext; [reflexivity|].
  apply (pmul_mod E HE).
Qed.

(** The running sum of [sum_checked] is the plain sum, it never meets the
    point at infinity, and neither does its result. *)
Lemma sum_checked_value (acc S : Point E) (l : list (Point E)) :
  MultiSig.sum_checked E acc l = Some S -> S = fold_left padd l acc.
Proof.
  revert acc; induction l as [|P l IH]; intros acc H; simpl in *.
  - congruence.
  - destruct (point_eqb (padd acc P) infinity); [discriminate|]. auto.
Qed.

Lemma sum_checked_prefix (acc S : Point E) (l : list (Point E)) :
  MultiSig.sum_checked E acc l = Some S -> acc <> infinity ->
  forall k, fold_left padd (firstn k l) acc <> infinity.
Proof.
  revert acc; induction l as [|P l IH]; intros acc H Hacc k.
  - now rewrite firstn_nil.
  - destruct k as [|k]; [exact Hacc|].
    simpl in H |- *.
    destruct (point_eqb (padd acc P) infinity) eqn:Hq; [discriminate|].
    apply point_eqb_false in Hq. eapply IH; eauto.
Qed.

Lemma aggregate_points_some (ps : list (Point E)) (S : Point E) :
  MultiSig.aggregate_points E ps = Some S ->
  exists P rest, ps = P :: rest /\ S = fold_left padd rest P
                 /\ (forall k, fold_left padd (firstn k rest) P <> infinity)
                 /\ S <> infinity.
Proof.
  destruct ps as [|P rest]; simpl; [discriminate|].
  destruct (point_eqb P infinity) eqn:HP; [discriminate|].
  apply point_eqb_false in HP. intros H.
  pose proof (sum_checked_prefix _ _ _ H HP) as Hpre.
  exists P, rest. repeat split; auto.
  - now apply sum_checked_value.
  - rewrite (sum_checked_value _ _ _ H), <- (firstn_all rest). apply Hpre.
Qed.

End EngineFacts.

(** ** Honest signers *)

Section Rounds.
Context {E : Engine} (HE : EngineLaws E).

Lemma commit_points_of_honest (signers : list (PrivKey * CommitSecret.t)) :
  honest signers = true ->
  map (fun sk => CommitPoint.of_secret (E := E) (snd sk)) signers
  = map (fun P => CommitPoint.mk P true)
        (map (fun sk => pmul (CommitSecret.m_s (snd sk)) gen) signers).
Proof.
  intros H. rewrite map_map. apply map_ext_in. intros sk Hin.
  unfold honest in H. rewrite forallb_forall in H.
  unfold CommitPoint.of_secret. now rewrite (H sk Hin).
Qed.

Lemma AggregateCommits_initialized (ps : list (Point E)) :
  MultiSig.AggregateCommits E (map (fun P => CommitPoint.mk P true) ps)
  = option_map (fun P => CommitPoint.mk P true) (MultiSig.aggregate_points E ps).
Proof.
  unfold MultiSig.AggregateCommits.
  replace (forallb CommitPoint.m_initialized (map (fun P => CommitPoint.mk P true) ps))
    with true.
  - rewrite map_map. simpl. now rewrite map_id.
  - symmetry. apply forallb_forall. intros x Hx.
    apply in_map_iff in Hx as (P & <- & _). reflexivity.
Qed.

Lemma responses_of_honest (signers : list (PrivKey * CommitSecret.t))
    (challenge : Challenge.t) :
  honest signers = true -> Challenge.m_initialized challenge = true ->
  map (fun sk => Response.new E (snd sk) challenge (fst sk)) signers
  = map (fun sk => Response.mk
           ((CommitSecret.m_s (snd sk) + Challenge.m_c challenge * fst sk)
              mod order E) true) signers.
Proof.
  intros H Hc. apply map_ext_in. intros sk Hin.
  unfold honest in H. rewrite forallb_forall in H.
  unfold Response.new. now rewrite (H sk Hin), Hc.
Qed.

Lemma AggregateResponses_initialized {A : Type} (g : A -> Z) (x0 : A) (l : list A) :
  MultiSig.AggregateResponses E (map (fun x => Response.mk (g x) true) (x0 :: l))
  = Some (Response.mk (fold_left (fun acc x => (acc + g x) mod order E) l (g x0)) true).
Proof.
  unfold MultiSig.AggregateResponses. simpl map.
  replace (forallb Response.m_initialized
             (Response.mk (g x0) true :: map (fun x => Response.mk (g x) true) l))
    with true.
  - now rewrite fold_left_map_comp.
  - symmetry. apply forallb_forall. intros x Hx.
    destruct Hx as [<-|Hx]; [reflexivity|].
    apply in_map_iff in Hx as (y & <- & _). reflexivity.
Qed.

End Rounds.

(** ** Serialization helpers *)

Lemma read_write_at_width (dst : list byte) (offset w : nat) (bs : list byte) :
  length bs = w -> read_at (write_at dst offset bs) offset w = Some bs.
Proof. intros <-. apply read_write_at. Qed.

Lemma scalar_roundtrip (E : Engine) (HE : EngineLaws E) (dst : list byte)
    (offset : nat) (z : Z) :
  0 <= z < order E ->
  read_at (write_at dst offset (be_encode (scalar_width E) z)) offset (scalar_width E)
  = Some (be_encode (scalar_width E) z)
  /\ be_decode (be_encode (scalar_width E) z) = z.
Proof.
  intros Hz. split.
  - apply read_write_at_width, be_encode_length.
  - apply be_decode_encode. pose proof (scalar_width_fits E HE). lia.
Qed.

(** ** Aggregates as plain sums *)

Section Sums.
Context {E : Engine} (HE : EngineLaws E).

Lemma aggregate_points_sum (ps : list (Point E)) (S : Point E) :
  MultiSig.aggregate_points E ps = Some S -> S = fold_left padd ps infinity.
Proof.
  intros H. apply (aggregate_points_some HE) in H as (P & rest & -> & -> & _).
  simpl. now rewrite (padd_O_l E HE).
Qed.

Lemma padd_step_comm (a x y : Point E) : padd (padd a x) y = padd (padd a y) x.
Proof.
  rewrite <- !(padd_assoc E HE). f_equal. apply (padd_comm E HE).
Qed.

Lemma aggregate_points_perm (ps ps' : list (Point E)) (S S' : Point E) :
  Permutation ps ps' ->
  MultiSig.aggregate_points E ps = Some S ->
  MultiSig.aggregate_points E ps' = Some S' -> S = S'.
Proof.
  intros Hp H H'.
  rewrite (aggregate_points_sum _ _ H), (aggregate_points_sum _ _ H').
  apply fold_left_permutation; [apply padd_step_comm|exact Hp].
Qed.

Lemma mod_step_comm (a x y : Z) :
  ((a + x) mod order E + y) mod order E = ((a + y) mod order E + x) mod order E.
Proof.
  rewrite !Z.add_mod_idemp_l by (pose proof (order_pos E HE); lia).
  f_equal. ring.
Qed.

(** From two responses on, [AggregateResponses] is the modular running sum
    of the whole list started at zero. *)
Lemma AggregateResponses_long (r0 r1 : Response.t) (rest : list Response.t) :
  MultiSig.AggregateResponses E (r0 :: r1 :: rest)
  = if forallb Response.m_initialized (r0 :: r1 :: rest)
    then Some (Response.mk
                 (fold_left (fun acc r => (acc + Response.m_r r) mod order E)
                    (r0 :: r1 :: rest) 0) true)
    else None.
Proof.
  unfold MultiSig.AggregateResponses.
  destruct (forallb Response.m_initialized (r0 :: r1 :: rest)); [|reflexivity].
  simpl. do 2 f_equal. f_equal.
  rewrite Z.add_mod_idemp_l by (pose proof (order_pos E HE); lia).
  reflexivity.
Qed.

End Sums.

(** * Claims *)

Section Claims.
Context {E : Engine} (HE : EngineLaws E).

(** C1: in a round of honest signers whose public keys and commit points
    aggregate, the aggregated response and the challenge form a signature
    that passes the standalone Schnorr verification equation
    [H(s·G - r·pubAgg ‖ pubAgg ‖ message) = r] for the aggregated key. *)
Theorem multisig_round_verifies (signers : list (PrivKey * CommitSecret.t))
    (message : list byte) (pubAgg : PubKey E) (commitAgg : CommitPoint.t E) :
  honest signers = true ->
  MultiSig.AggregatePubKeys E
    (map (fun sk => PubKey_of_PrivKey (fst sk)) signers) = Some pubAgg ->
  MultiSig.AggregateCommits E
    (map (fun sk => CommitPoint.of_secret (snd sk)) signers) = Some commitAgg ->
  exists respAgg sig,
    MultiSig.AggregateResponses E
      (map (fun sk => Response.new E (snd sk)
                        (Challenge.new E commitAgg pubAgg message) (fst sk))
         signers) = Some respAgg
    /\ MultiSig.AggregateSign (Challenge.new E commitAgg pubAgg message) respAgg
       = Some sig
    /\ SchnorrVerify message sig pubAgg = true.
Proof.
  intros Hh Hpk Hcm.
  (* the aggregated commit point *)
  rewrite (commit_points_of_honest signers Hh), AggregateCommits_initialized in Hcm.
  destruct (MultiSig.aggregate_points E _) as [S|] eqn:HS; [|discriminate].
  injection Hcm as <-.
  apply (aggregate_points_some HE) in HS as (S0 & ss & Hss & HSv & _ & HSO).
  destruct signers as [|[priv0 s0] rest]; [discriminate|].
  simpl in Hss. injection Hss as <- <-.
  pose proof (fold_padd_pmul HE (fun sk => CommitSecret.m_s (snd sk)) gen rest
                (CommitSecret.m_s s0)) as Hsum.
  cbv beta in Hsum. rewrite Hsum in HSv. clear Hsum.
  (* the aggregated public key *)
  unfold MultiSig.AggregatePubKeys, PubKey_of_PrivKey in Hpk.
  apply (aggregate_points_some HE) in Hpk as (K0 & ks & Hks & HpkV & _ & _).
  simpl in Hks. injection Hks as <- <-.
  assert (HpkS : pubAgg = pmul (fold_left (fun acc sk => acc + fst sk) rest priv0) gen)
    by (rewrite HpkV; apply (fold_padd_pmul HE)).
  clear HpkV.
  (* the challenge *)
  set (c := hash_to_scalar S pubAgg message mod order E).
  assert (Hch : Challenge.new E (CommitPoint.mk S true) pubAgg message
                = Challenge.mk c true).
  { unfold Challenge.new. simpl.
    destruct (point_eqb S infinity) eqn:HSinf.
    - apply (point_eqb_spec E HE) in HSinf. contradiction.
    - reflexivity. }
  rewrite Hch.
  (* the responses *)
  rewrite (responses_of_honest (E := E) _ (Challenge.mk c true) Hh eq_refl).
  rewrite (AggregateResponses_initialized
             (fun sk => (CommitSecret.m_s (snd sk) + Challenge.m_c (Challenge.mk c true)
                         * fst sk) mod order E)).
  eexists; eexists; split; [reflexivity|]. split; [reflexivity|].
  unfold SchnorrVerify. simpl sig_s; simpl sig_r.
  (* R' = S *)
  match goal with |- context [padd (pmul ?Rv gen) _] => set (R := Rv) end.
  assert (HR : pmul R (@gen E)
               = pmul (fold_left (fun acc sk => acc + CommitSecret.m_s (snd sk)) rest
                         (CommitSecret.m_s s0)
                       + c * fold_left (fun acc sk => acc + fst sk) rest priv0) gen).
  { unfold R. rewrite (pmul_fold_mod HE).
    rewrite <- (fold_plus_linear (fun sk => CommitSecret.m_s (snd sk)) fst c).
    apply (pmul_fold_plus_ext HE); intros; apply (pmul_mod E HE). }
  assert (HR' : padd (pmul R gen) (pneg (pmul c pubAgg)) = S).
  { rewrite HR, HpkS, HSv, (pmul_pmul E HE), (pneg_pmul HE), <- (pmul_add E HE).
    f_equal. ring. }
  rewrite HR'. apply Z.eqb_refl.
Qed.

(** C2: a response built from a signer's secret, a challenge and the
    signer's private key passes [VerifyResponse] against the signer's public
    key and the commit point of that secret; on initialized operands
    [VerifyResponse] decides exactly [response·G = commitPoint + challenge·pubkey]. *)
Theorem VerifyResponse_sound (secret : CommitSecret.t) (challenge : Challenge.t)
    (privkey : PrivKey) :
  CommitSecret.m_initialized secret = true ->
  Challenge.m_initialized challenge = true ->
  MultiSig.VerifyResponse E (Response.new E secret challenge privkey) challenge
    (PubKey_of_PrivKey privkey) (CommitPoint.of_secret secret) = true
  /\ (forall (r : Response.t) (c : Challenge.t) (pk : PubKey E)
             (cp : CommitPoint.t E),
        Response.m_initialized r = true -> Challenge.m_initialized c = true ->
        CommitPoint.m_initialized cp = true ->
        MultiSig.VerifyResponse E r c pk cp = true
        <-> pmul (Response.m_r r) gen
            = padd (CommitPoint.m_p cp) (pmul (Challenge.m_c c) pk)).
Proof.
  intros Hs Hc. split.
  - unfold MultiSig.VerifyResponse, Response.new, CommitPoint.of_secret,
      PubKey_of_PrivKey.
    rewrite Hs, Hc. simpl. apply (point_eqb_spec E HE).
    rewrite (pmul_mod E HE), (pmul_add E HE), (pmul_pmul E HE). reflexivity.
  - intros r c pk cp Hr Hc' Hcp. unfold MultiSig.VerifyResponse.
    rewrite Hr, Hc', Hcp. simpl. apply (point_eqb_spec E HE).
Qed.

(** C6: [Challenge(aggregatedCommit, aggregatedPubkey, message)] and
    [Challenge::Set] leave the challenge uninitialized when the commit point
    is uninitialized or the point at infinity, and otherwise give the hash
    of the three inputs reduced modulo the group order. *)
Theorem Challenge_new_spec (cp : CommitPoint.t E) (pk : PubKey E)
    (message : list byte) (self : Challenge.t) :
  ((CommitPoint.m_initialized cp = false \/ CommitPoint.m_p cp = infinity) ->
     Challenge.Initialized (Challenge.new E cp pk message) = false
     /\ Challenge.Initialized (Challenge.Set_ E self cp pk message) = false)
  /\ (CommitPoint.m_initialized cp = true -> CommitPoint.m_p cp <> infinity ->
     Challenge.new E cp pk message
     = Challenge.mk (hash_to_scalar (CommitPoint.m_p cp) pk message mod order E) true
     /\ Challenge.Set_ E self cp pk message
        = Challenge.mk (hash_to_scalar (CommitPoint.m_p cp) pk message mod order E) true).
Proof.
  unfold Challenge.Set_, Challenge.new, Challenge.Initialized. split.
  - intros [H|H].
    + rewrite H. simpl. auto.
    + rewrite H, (point_eqb_refl HE), andb_false_r. simpl. auto.
  - intros H1 H2. apply point_eqb_false in H2; [|exact HE].
    rewrite H1, H2. simpl. auto.
Qed.

(** C7: [Response(secret, challenge, privkey)] and [Response::Set] give
    the initialized response [(s + c * privkey) mod n] from initialized
    operands, and an uninitialized response when the secret or the
    challenge is uninitialized. *)
Theorem Response_new_spec (secret : CommitSecret.t) (challenge : Challenge.t)
    (privkey : PrivKey) (self : Response.t) :
  (CommitSecret.m_initialized secret = true ->
   Challenge.m_initialized challenge = true ->
     Response.new E secret challenge privkey
     = Response.mk ((CommitSecret.m_s secret + Challenge.m_c challenge * privkey)
                      mod order E) true
     /\ Response.Set_ E self secret challenge privkey
        = Response.mk ((CommitSecret.m_s secret + Challenge.m_c challenge * privkey)
                         mod order E) true)
  /\ (CommitSecret.m_initialized secret = false
      \/ Challenge.m_initialized challenge = false ->
      Response.Initialized (Response.new E secret challenge privkey) = false
      /\ Response.Initialized (Response.Set_ E self secret challenge privkey) = false).
Proof.
  unfold Response.Set_, Response.new, Response.Initialized. split.
  - intros H1 H2. rewrite H1, H2. auto.
  - intros [H|H]; rewrite H; [|rewrite andb_false_r]; simpl; auto.
Qed.

(** C8: [VerifyResponse] returns [false] as soon as the response, the
    challenge or the commit point is uninitialized. *)
Theorem VerifyResponse_uninitialized (r : Response.t) (c : Challenge.t)
    (pk : PubKey E) (cp : CommitPoint.t E) :
  Response.m_initialized r = false \/ Challenge.m_initialized c = false
  \/ CommitPoint.m_initialized cp = false ->
  MultiSig.VerifyResponse E r c pk cp = false.
Proof.
  unfold MultiSig.VerifyResponse.
  destruct (Response.m_initialized r), (Challenge.m_initialized c),
    (CommitPoint.m_initialized cp); simpl; intuition congruence.
Qed.

(** C3: serializing an initialized, valid value and deserializing the
    buffer at the same offset gives back an equal value; a scalar is written
    as the fixed-width big-endian [be_encode] on the byte width of the
    group order, a point as the engine's fixed-width encoding. *)
Theorem serialize_roundtrip :
  (forall (x self : CommitSecret.t) (dst : list byte) (offset : nat),
     CommitSecret.m_initialized x = true -> 1 <= CommitSecret.m_s x < order E ->
     snd (CommitSecret.Serialize E x dst offset) = scalar_width E
     /\ read_at (fst (CommitSecret.Serialize E x dst offset)) offset (scalar_width E)
        = Some (be_encode (scalar_width E) (CommitSecret.m_s x))
     /\ CommitSecret.eqb
          (CommitSecret.Deserialize E self (fst (CommitSecret.Serialize E x dst offset))
             offset) x = true)
  /\ (forall (x self : CommitPoint.t E) (dst : list byte) (offset : nat),
     CommitPoint.m_initialized x = true -> on_curve (CommitPoint.m_p x) = true ->
     CommitPoint.m_p x <> infinity ->
     snd (CommitPoint.Serialize x dst offset) = point_width E
     /\ read_at (fst (CommitPoint.Serialize x dst offset)) offset (point_width E)
        = Some (point_encode (CommitPoint.m_p x))
     /\ CommitPoint.eqb
          (CommitPoint.Deserialize self (fst (CommitPoint.Serialize x dst offset))
             offset) x = true)
  /\ (forall (x self : Challenge.t) (dst : list byte) (offset : nat),
     Challenge.m_initialized x = true -> 0 <= Challenge.m_c x < order E ->
     snd (Challenge.Serialize E x dst offset) = scalar_width E
     /\ read_at (fst (Challenge.Serialize E x dst offset)) offset (scalar_width E)
        = Some (be_encode (scalar_width E) (Challenge.m_c x))
     /\ Challenge.eqb
          (Challenge.Deserialize E self (fst (Challenge.Serialize E x dst offset))
             offset) x = true)
  /\ (forall (x self : Response.t) (dst : list byte) (offset : nat),
     Response.m_initialized x = true -> 0 <= Response.m_r x < order E ->
     snd (Response.Serialize E x dst offset) = scalar_width E
     /\ read_at (fst (Response.Serialize E x dst offset)) offset (scalar_width E)
        = Some (be_encode (scalar_width E) (Response.m_r x))
     /\ Response.eqb
          (Response.Deserialize E self (fst (Response.Serialize E x dst offset))
             offset) x = true).
Proof.
  split; [|split; [|split]].
  - intros [s init] self dst offset Hi Hs; simpl in *; subst init.
    destruct (scalar_roundtrip E HE dst offset s ltac:(lia)) as [Hr Hd].
    unfold CommitSecret.Deserialize, CommitSecret.eqb; simpl.
    repeat split; [exact Hr|]. rewrite Hr, Hd.
    destruct (Z.leb_spec 1 s); [|lia]. destruct (Z.ltb_spec s (order E)); [|lia].
    simpl. apply Z.eqb_refl.
  - intros [P init] self dst offset Hi Hon Hinf; simpl in *; subst init.
    unfold CommitPoint.Deserialize, CommitPoint.eqb; simpl.
    assert (Hr : read_at (write_at dst offset (point_encode P)) offset (point_width E)
                 = Some (point_encode P))
      by (apply read_write_at_width, (point_encode_length E HE)).
    repeat split; [exact Hr|]. rewrite Hr, (point_decode_encode E HE P Hon Hinf), Hon.
    apply point_eqb_false in Hinf; [|exact HE]. rewrite Hinf. simpl.
    apply (point_eqb_refl HE).
  - intros [c init] self dst offset Hi Hc; simpl in *; subst init.
    destruct (scalar_roundtrip E HE dst offset c Hc) as [Hr Hd].
    unfold Challenge.Deserialize, Challenge.eqb; simpl.
    repeat split; [exact Hr|]. rewrite Hr, Hd.
    destruct (Z.leb_spec 0 c); [|lia]. destruct (Z.ltb_spec c (order E)); [|lia].
    simpl. apply Z.eqb_refl.
  - intros [r init] self dst offset Hi Hrr; simpl in *; subst init.
    destruct (scalar_roundtrip E HE dst offset r Hrr) as [Hr Hd].
    unfold Response.Deserialize, Response.eqb; simpl.
    repeat split; [exact Hr|]. rewrite Hr, Hd.
    destruct (Z.leb_spec 0 r); [|lia]. destruct (Z.ltb_spec r (order E)); [|lia].
    simpl. apply Z.eqb_refl.
Qed.

(** C9: deserialization leaves the target uninitialized on a buffer too
    short for the payload, on a scalar outside [[0, n)], on a point that
    does not decode, is not on the curve or is the point at infinity; an
    initialized result always holds the decoded payload and satisfies its
    type's range, [1 <= s < n] for a [CommitSecret]. *)
Theorem Deserialize_validates :
  (forall (self : CommitSecret.t) (src : list byte) (offset : nat),
     ((length src < offset + scalar_width E)%nat ->
        CommitSecret.Initialized (CommitSecret.Deserialize E self src offset) = false)
     /\ (forall bs, read_at src offset (scalar_width E) = Some bs ->
           ~ (0 <= be_decode bs < order E) ->
           CommitSecret.Initialized (CommitSecret.Deserialize E self src offset) = false)
     /\ (CommitSecret.Initialized (CommitSecret.Deserialize E self src offset) = true ->
           exists bs, read_at src offset (scalar_width E) = Some bs
             /\ CommitSecret.m_s (CommitSecret.Deserialize E self src offset) = be_decode bs
             /\ 1 <= be_decode bs < order E))
  /\ (forall (self : CommitPoint.t E) (src : list byte) (offset : nat),
     ((length src < offset + point_width E)%nat ->
        CommitPoint.Initialized (CommitPoint.Deserialize self src offset) = false)
     /\ (forall bs, read_at src offset (point_width E) = Some bs ->
           @point_decode E bs = None ->
           CommitPoint.Initialized (CommitPoint.Deserialize self src offset) = false)
     /\ (forall bs P, read_at src offset (point_width E) = Some bs ->
           @point_decode E bs = Some P -> on_curve P = false \/ P = infinity ->
           CommitPoint.Initialized (CommitPoint.Deserialize self src offset) = false)
     /\ (CommitPoint.Initialized (CommitPoint.Deserialize self src offset) = true ->
           exists bs, read_at src offset (point_width E) = Some bs
             /\ point_decode bs
                = Some (CommitPoint.m_p (CommitPoint.Deserialize self src offset))
             /\ on_curve (CommitPoint.m_p (CommitPoint.Deserialize self src offset)) = true
             /\ CommitPoint.m_p (CommitPoint.Deserialize self src offset) <> infinity))
  /\ (forall (self : Challenge.t) (src : list byte) (offset : nat),
     ((length src < offset + scalar_width E)%nat ->
        Challenge.Initialized (Challenge.Deserialize E self src offset) = false)
     /\ (forall bs, read_at src offset (scalar_width E) = Some bs ->
           ~ (0 <= be_decode bs < order E) ->
           Challenge.Initialized (Challenge.Deserialize E self src offset) = false)
     /\ (Challenge.Initialized (Challenge.Deserialize E self src offset) = true ->
           exists bs, read_at src offset (scalar_width E) = Some bs
             /\ Challenge.m_c (Challenge.Deserialize E self src offset) = be_decode bs
             /\ 0 <= be_decode bs < order E))
  /\ (forall (self : Response.t) (src : list byte) (offset : nat),
     ((length src < offset + scalar_width E)%nat ->
        Response.Initialized (Response.Deserialize E self src offset) = false)
     /\ (forall bs, read_at src offset (scalar_width E) = Some bs ->
           ~ (0 <= be_decode bs < order E) ->
           Response.Initialized (Response.Deserialize E self src offset) = false)
     /\ (Response.Initialized (Response.Deserialize E self src offset) = true ->
           exists bs, read_at src offset (scalar_width E) = Some bs
             /\ Response.m_r (Response.Deserialize E self src offset) = be_decode bs
             /\ 0 <= be_decode bs < order E)).
Proof.
  split; [|split; [|split]]; intros self src offset.
  - unfold CommitSecret.Initialized, CommitSecret.Deserialize.
    split; [|split].
    + intros H. unfold read_at. destruct (Nat.ltb_spec (length src) (offset + scalar_width E)); [reflexivity|lia].
    + intros bs Hbs Hr. rewrite Hbs.
      destruct (Z.leb_spec 1 (be_decode bs)), (Z.ltb_spec (be_decode bs) (order E));
        simpl; auto; lia.
    + destruct (read_at src offset (scalar_width E)) as [bs|]; [|discriminate].
      destruct (Z.leb_spec 1 (be_decode bs)), (Z.ltb_spec (be_decode bs) (order E));
        simpl; try discriminate. intros _. exists bs. auto.
  - unfold CommitPoint.Initialized, CommitPoint.Deserialize.
    split; [|split; [|split]].
    + intros H. unfold read_at. destruct (Nat.ltb_spec (length src) (offset + point_width E)); [reflexivity|lia].
    + intros bs Hbs Hd. now rewrite Hbs, Hd.
    + intros bs P Hbs Hd Hbad. rewrite Hbs, Hd.
      destruct Hbad as [Hbad|Hbad].
      * now rewrite Hbad.
      * subst P. now rewrite (point_eqb_refl HE), andb_false_r.
    + destruct (read_at src offset (point_width E)) as [bs|]; [|discriminate].
      destruct (point_decode bs) as [P|] eqn:Hd; [|discriminate].
      destruct (on_curve P) eqn:Hon; [|discriminate].
      destruct (point_eqb P infinity) eqn:Hinf; [discriminate|].
      intros _. exists bs. simpl. repeat split; auto.
      now apply point_eqb_false.
  - unfold Challenge.Initialized, Challenge.Deserialize.
    split; [|split].
    + intros H. unfold read_at. destruct (Nat.ltb_spec (length src) (offset + scalar_width E)); [reflexivity|lia].
    + intros bs Hbs Hr. rewrite Hbs.
      destruct (Z.leb_spec 0 (be_decode bs)), (Z.ltb_spec (be_decode bs) (order E));
        simpl; auto; lia.
    + destruct (read_at src offset (scalar_width E)) as [bs|]; [|discriminate].
      destruct (Z.leb_spec 0 (be_decode bs)), (Z.ltb_spec (be_decode bs) (order E));
        simpl; try discriminate. intros _. exists bs. auto.
  - unfold Response.Initialized, Response.Deserialize.
    split; [|split].
    + intros H. unfold read_at. destruct (Nat.ltb_spec (length src) (offset + scalar_width E)); [reflexivity|lia].
    + intros bs Hbs Hr. rewrite Hbs.
      destruct (Z.leb_spec 0 (be_decode bs)), (Z.ltb_spec (be_decode bs) (order E));
        simpl; auto; lia.
    + destruct (read_at src offset (scalar_width E)) as [bs|]; [|discriminate].
      destruct (Z.leb_spec 0 (be_decode bs)), (Z.ltb_spec (be_decode bs) (order E));
        simpl; try discriminate. intros _. exists bs. auto.
Qed.

(** C10: a copy, and the target of an assignment, is initialized exactly
    when the source is, equals the source under [operator==] when the
    source is initialized, and the source is left as it was. *)
Theorem copy_preserves :
  (forall x self : CommitSecret.t,
     CommitSecret.Initialized (CommitSecret.copy x) = CommitSecret.Initialized x
     /\ CommitSecret.Initialized (fst (CommitSecret.assign self x))
        = CommitSecret.Initialized x
     /\ snd (CommitSecret.assign self x) = x
     /\ (CommitSecret.Initialized x = true ->
         CommitSecret.eqb (CommitSecret.copy x) x = true
         /\ CommitSecret.eqb (fst (CommitSecret.assign self x)) x = true))
  /\ (forall x self : CommitPoint.t E,
     CommitPoint.Initialized (CommitPoint.copy x) = CommitPoint.Initialized x
     /\ CommitPoint.Initialized (fst (CommitPoint.assign self x))
        = CommitPoint.Initialized x
     /\ snd (CommitPoint.assign self x) = x
     /\ (CommitPoint.Initialized x = true ->
         CommitPoint.eqb (CommitPoint.copy x) x = true
         /\ CommitPoint.eqb (fst (CommitPoint.assign self x)) x = true))
  /\ (forall x self : Challenge.t,
     Challenge.Initialized (Challenge.copy x) = Challenge.Initialized x
     /\ Challenge.Initialized (fst (Challenge.assign self x)) = Challenge.Initialized x
     /\ snd (Challenge.assign self x) = x
     /\ (Challenge.Initialized x = true ->
         Challenge.eqb (Challenge.copy x) x = true
         /\ Challenge.eqb (fst (Challenge.assign self x)) x = true))
  /\ (forall x self : Response.t,
     Response.Initialized (Response.copy x) = Response.Initialized x
     /\ Response.Initialized (fst (Response.assign self x)) = Response.Initialized x
     /\ snd (Response.assign self x) = x
     /\ (Response.Initialized x = true ->
         Response.eqb (Response.copy x) x = true
         /\ Response.eqb (fst (Response.assign self x)) x = true)).
Proof.
  split; [|split; [|split]]; intros [v init] self; cbn; repeat split;
    match goal with Hi : init = true |- _ => subst init end;
    cbn; rewrite ?Z.eqb_refl, ?(point_eqb_refl HE); reflexivity.
Qed.

(** C5: the three aggregations fail on an empty input, and the two point
    aggregations fail as soon as a running sum (the first point, then each
    partial sum) is the point at infinity. *)
Theorem degenerate_aggregation_fails :
  MultiSig.AggregatePubKeys E [] = None
  /\ MultiSig.AggregateCommits E [] = None
  /\ MultiSig.AggregateResponses E [] = None
  /\ (forall (P : PubKey E) (rest : list (PubKey E)) (k : nat),
        fold_left padd (firstn k rest) P = infinity ->
        MultiSig.AggregatePubKeys E (P :: rest) = None)
  /\ (forall (c0 : CommitPoint.t E) (rest : list (CommitPoint.t E)) (k : nat),
        fold_left padd (firstn k (map CommitPoint.m_p rest)) (CommitPoint.m_p c0)
        = infinity ->
        MultiSig.AggregateCommits E (c0 :: rest) = None).
Proof.
  repeat split.
  - intros P rest k Hk. unfold MultiSig.AggregatePubKeys.
    destruct (MultiSig.aggregate_points E (P :: rest)) as [S|] eqn:H; [|reflexivity].
    apply (aggregate_points_some HE) in H as (P' & rest' & Heq & _ & Hpre & _).
    injection Heq as <- <-. exfalso. exact (Hpre k Hk).
  - intros c0 rest k Hk. unfold MultiSig.AggregateCommits.
    destruct (forallb CommitPoint.m_initialized (c0 :: rest)); [|reflexivity].
    destruct (MultiSig.aggregate_points E (map CommitPoint.m_p (c0 :: rest)))
      as [S|] eqn:H; [|reflexivity].
    apply (aggregate_points_some HE) in H as (P' & rest' & Heq & _ & Hpre & _).
    simpl in Heq. injection Heq as <- <-. exfalso. exact (Hpre k Hk).
Qed.

(** C4 (amended): [AggregateResponses] does not depend on the order of the
    responses; [AggregatePubKeys] and [AggregateCommits] give the same
    aggregate for any two orders of one input on which both succeed.
    Whether they succeed can depend on the order, since every running sum
    is checked against the point at infinity. *)
Theorem aggregation_order_independent :
  (forall rs rs' : list Response.t, Permutation rs rs' ->
     MultiSig.AggregateResponses E rs = MultiSig.AggregateResponses E rs')
  /\ (forall (ks ks' : list (PubKey E)) (a b : PubKey E), Permutation ks ks' ->
       MultiSig.AggregatePubKeys E ks = Some a ->
       MultiSig.AggregatePubKeys E ks' = Some b -> a = b)
  /\ (forall (cs cs' : list (CommitPoint.t E)) (a b : CommitPoint.t E),
       Permutation cs cs' ->
       MultiSig.AggregateCommits E cs = Some a ->
       MultiSig.AggregateCommits E cs' = Some b -> a = b).
Proof.
  split; [|split].
  - intros rs rs' Hp.
    destruct rs as [|r0 [|r1 rest]].
    + apply Permutation_nil in Hp as ->. reflexivity.
    + apply Permutation_length_1_inv in Hp as ->. reflexivity.
    + destruct rs' as [|r0' [|r1' rest']];
        [apply Permutation_length in Hp; discriminate
        |apply Permutation_length in Hp; discriminate|].
      rewrite !(AggregateResponses_long HE), (forallb_permutation _ _ _ Hp).
      destruct (forallb Response.m_initialized (r0' :: r1' :: rest')); [|reflexivity].
      do 2 f_equal. apply fold_left_permutation; [intros; apply (mod_step_comm HE)|exact Hp].
  - intros ks ks' a b Hp H H'. exact (aggregate_points_perm HE _ _ _ _ Hp H H').
  - intros cs cs' a b Hp. unfold MultiSig.AggregateCommits.
    rewrite (forallb_permutation _ _ _ Hp).
    destruct (forallb CommitPoint.m_initialized cs'); [|discriminate].
    destruct (MultiSig.aggregate_points E (map CommitPoint.m_p cs)) as [S|] eqn:H;
      [|discriminate].
    destruct (MultiSig.aggregate_points E (map CommitPoint.m_p cs')) as [S'|] eqn:H';
      [|discriminate].
    simpl. intros Ha Hb. injection Ha as <-. injection Hb as <-.
    f_equal. eapply (aggregate_points_perm HE); [|exact H|exact H'].
    now apply Permutation_map.
Qed.

End Claims.

(** ** Witnesses on the order-7 engine *)

Lemma multisig_round_verifies_witness :
  let signers := [(2, CommitSecret.mk 3 true); (4, CommitSecret.mk 5 true)] in
  let message := [Byte.x62; Byte.x31] in
  honest signers = true /\
  exists (pubAgg : PubKey Z7.engine) (commitAgg : CommitPoint.t Z7.engine),
    MultiSig.AggregatePubKeys Z7.engine
      (map (fun sk => PubKey_of_PrivKey (fst sk)) signers) = Some pubAgg
    /\ MultiSig.AggregateCommits Z7.engine
         (map (fun sk => CommitPoint.of_secret (snd sk)) signers) = Some commitAgg
    /\ exists respAgg sig,
         MultiSig.AggregateResponses Z7.engine
           (map (fun sk => Response.new Z7.engine (snd sk)
                   (Challenge.new Z7.engine commitAgg pubAgg message) (fst sk))
              signers) = Some respAgg
         /\ MultiSig.AggregateSign
              (Challenge.new Z7.engine commitAgg pubAgg message) respAgg = Some sig
         /\ SchnorrVerify message sig pubAgg = true.
Proof.
  intros signers message. split; [reflexivity|].
  do 2 eexists. split; [reflexivity|]. split; [reflexivity|].
  apply (multisig_round_verifies Z7_laws); reflexivity.
Defined.

Lemma VerifyResponse_sound_witness :
  CommitSecret.m_initialized (CommitSecret.mk 3 true) = true
  /\ Challenge.m_initialized (Challenge.mk 5 true) = true
  /\ MultiSig.VerifyResponse Z7.engine
       (Response.new Z7.engine (CommitSecret.mk 3 true) (Challenge.mk 5 true) 4)
       (Challenge.mk 5 true) (PubKey_of_PrivKey 4)
       (CommitPoint.of_secret (CommitSecret.mk 3 true)) = true.
Proof.
  split; [reflexivity|]. split; [reflexivity|].
  exact (proj1 (VerifyResponse_sound Z7_laws (CommitSecret.mk 3 true)
                  (Challenge.mk 5 true) 4 eq_refl eq_refl)).
Defined.

Lemma serialize_roundtrip_witness :
  CommitSecret.eqb
    (CommitSecret.Deserialize Z7.engine (CommitSecret.mk 0 false)
       (fst (CommitSecret.Serialize Z7.engine (CommitSecret.mk 5 true) [Byte.x01] 1)) 1)
    (CommitSecret.mk 5 true) = true
  /\ CommitPoint.eqb
       (CommitPoint.Deserialize CommitPoint.uninit
          (fst (CommitPoint.Serialize
                  (CommitPoint.mk (E := Z7.engine) (Zmod.of_Z 7 3) true) [] 0%nat)) 0)
       (CommitPoint.mk (E := Z7.engine) (Zmod.of_Z 7 3) true) = true
  /\ Challenge.eqb
       (Challenge.Deserialize Z7.engine Challenge.uninit
          (fst (Challenge.Serialize Z7.engine (Challenge.mk 0 true) [] 2)) 2)
       (Challenge.mk 0 true) = true
  /\ Response.eqb
       (Response.Deserialize Z7.engine Response.uninit
          (fst (Response.Serialize Z7.engine (Response.mk 6 true) [Byte.x07] 0)) 0)
       (Response.mk 6 true) = true.
Proof.
  destruct (serialize_roundtrip (E := Z7.engine) Z7_laws) as (H1 & H2 & H3 & H4).
  split; [|split; [|split]].
  - apply (H1 (CommitSecret.mk 5 true)); [reflexivity|cbn; lia].
  - apply (H2 (CommitPoint.mk (E := Z7.engine) (Zmod.of_Z 7 3) true)); [reflexivity|reflexivity|].
    cbn. intros H. apply (f_equal Zmod.unsigned) in H. vm_compute in H. discriminate.
  - apply (H3 (Challenge.mk 0 true)); [reflexivity|cbn; lia].
  - apply (H4 (Response.mk 6 true)); [reflexivity|cbn; lia].
Defined.

Lemma Challenge_new_spec_witness :
  Challenge.new Z7.engine (CommitPoint.mk (E := Z7.engine) (Zmod.of_Z 7 3) true) (Zmod.of_Z 7 2)
    [Byte.x01]
  = Challenge.mk ((3 + 3 * 2 + 1) mod 7) true
  /\ Challenge.Initialized
       (Challenge.new Z7.engine (CommitPoint.mk (E := Z7.engine) Zmod.zero true) (Zmod.of_Z 7 2) [])
     = false.
Proof.
  assert (Hn : Zmod.of_Z 7 3 <> Zmod.zero).
  { intros H. apply (f_equal Zmod.unsigned) in H. vm_compute in H. discriminate. }
  split.
  - destruct (proj2 (Challenge_new_spec Z7_laws
                       (CommitPoint.mk (E := Z7.engine) (Zmod.of_Z 7 3) true)
                       (Zmod.of_Z 7 2) [Byte.x01] Challenge.uninit) eq_refl Hn)
      as [H _].
    rewrite H. reflexivity.
  - destruct (proj1 (Challenge_new_spec Z7_laws
                       (CommitPoint.mk (E := Z7.engine) Zmod.zero true)
                       (Zmod.of_Z 7 2) [] Challenge.uninit) (or_intror eq_refl))
      as [H _].
    exact H.
Defined.

Lemma Response_new_spec_witness :
  Response.new Z7.engine (CommitSecret.mk 3 true) (Challenge.mk 5 true) 4
  = Response.mk ((3 + 5 * 4) mod 7) true
  /\ Response.Initialized
       (Response.new Z7.engine (CommitSecret.mk 3 true) (Challenge.mk 5 false) 4)
     = false.
Proof.
  split.
  - destruct (proj1 (Response_new_spec (E := Z7.engine) (CommitSecret.mk 3 true)
                       (Challenge.mk 5 true) 4 Response.uninit) eq_refl eq_refl)
      as [H _].
    exact H.
  - destruct (proj2 (Response_new_spec (E := Z7.engine) (CommitSecret.mk 3 true)
                       (Challenge.mk 5 false) 4 Response.uninit) (or_intror eq_refl))
      as [H _].
    exact H.
Defined.

Lemma VerifyResponse_uninitialized_witness :
  MultiSig.VerifyResponse Z7.engine (Response.mk 1 true) (Challenge.mk 5 false)
    (Zmod.of_Z 7 2) (CommitPoint.mk (E := Z7.engine) (Zmod.of_Z 7 3) true) = false.
Proof.
  apply VerifyResponse_uninitialized. right; left. reflexivity.
Defined.

Lemma Deserialize_validates_witness :
  CommitSecret.Initialized (CommitSecret.Deserialize Z7.engine (CommitSecret.mk 2 true) [] 0%nat)
    = false
  /\ Challenge.Initialized (Challenge.Deserialize Z7.engine (Challenge.mk 2 true) [Byte.x09] 0%nat)
    = false
  /\ CommitPoint.Initialized
       (CommitPoint.Deserialize (CommitPoint.mk (E := Z7.engine) (Zmod.of_Z 7 1) true)
          [Byte.x00] 0%nat) = false
  /\ Response.Initialized (Response.Deserialize Z7.engine (Response.mk 2 true) [Byte.x08] 0%nat)
    = false.
Proof.
  destruct (Deserialize_validates (E := Z7.engine) Z7_laws) as (H1 & H2 & H3 & H4).
  split; [|split; [|split]].
  - apply (proj1 (H1 (CommitSecret.mk 2 true) [] 0%nat)). cbn. lia.
  - apply (proj1 (proj2 (H3 (Challenge.mk 2 true) [Byte.x09] 0%nat)) [Byte.x09]); [reflexivity|cbn; lia].
  - apply (proj1 (proj2 (proj2 (H2 (CommitPoint.mk (E := Z7.engine) (Zmod.of_Z 7 1) true) [Byte.x00] 0%nat)))
            [Byte.x00] Zmod.zero);
      [reflexivity|reflexivity|right; reflexivity].
  - apply (proj1 (proj2 (H4 (Response.mk 2 true) [Byte.x08] 0%nat)) [Byte.x08]); [reflexivity|cbn; lia].
Defined.

Lemma copy_preserves_witness :
  CommitSecret.eqb (CommitSecret.copy (CommitSecret.mk 4 true)) (CommitSecret.mk 4 true)
    = true
  /\ CommitPoint.eqb (CommitPoint.copy (CommitPoint.mk (E := Z7.engine) (Zmod.of_Z 7 5) true))
       (CommitPoint.mk (E := Z7.engine) (Zmod.of_Z 7 5) true) = true
  /\ Challenge.eqb (fst (Challenge.assign Challenge.uninit (Challenge.mk 6 true)))
       (Challenge.mk 6 true) = true
  /\ Response.Initialized (Response.copy Response.uninit) = false.
Proof.
  destruct (copy_preserves (E := Z7.engine) Z7_laws) as (H1 & H2 & H3 & H4).
  split; [|split; [|split]].
  - apply (H1 (CommitSecret.mk 4 true) (CommitSecret.mk 0 false)). reflexivity.
  - apply (H2 (CommitPoint.mk (E := Z7.engine) (Zmod.of_Z 7 5) true) CommitPoint.uninit). reflexivity.
  - apply (H3 (Challenge.mk 6 true) Challenge.uninit). reflexivity.
  - rewrite (proj1 (H4 Response.uninit Response.uninit)). reflexivity.
Defined.

Lemma degenerate_aggregation_fails_witness :
  MultiSig.AggregatePubKeys Z7.engine [Zmod.of_Z 7 1; Zmod.of_Z 7 6; Zmod.of_Z 7 2] = None
  /\ MultiSig.AggregateCommits Z7.engine
       [CommitPoint.mk (E := Z7.engine) (Zmod.of_Z 7 3) true; CommitPoint.mk (E := Z7.engine) (Zmod.of_Z 7 4) true] = None
  /\ MultiSig.AggregateResponses Z7.engine [] = None.
Proof.
  destruct (degenerate_aggregation_fails (E := Z7.engine) Z7_laws)
    as (_ & _ & H3 & H4 & H5).
  split; [|split; [|exact H3]].
  - apply (H4 _ _ 1%nat). reflexivity.
  - apply (H5 _ _ 1%nat). reflexivity.
Defined.

Lemma aggregation_order_independent_witness :
  MultiSig.AggregateResponses Z7.engine
    [Response.mk 3 true; Response.mk 5 true; Response.mk 6 true]
  = MultiSig.AggregateResponses Z7.engine
      [Response.mk 5 true; Response.mk 6 true; Response.mk 3 true]
  /\ exists a b : PubKey Z7.engine,
       MultiSig.AggregatePubKeys Z7.engine [Zmod.of_Z 7 1; Zmod.of_Z 7 2] = Some a
       /\ MultiSig.AggregatePubKeys Z7.engine [Zmod.of_Z 7 2; Zmod.of_Z 7 1] = Some b
       /\ a = b.
Proof.
  destruct (aggregation_order_independent (E := Z7.engine) Z7_laws) as (H1 & H2 & _).
  split.
  - apply H1.
    exact (Permutation_cons_append [Response.mk 5 true; Response.mk 6 true]
             (Response.mk 3 true)).
  - exists (Zmod.of_Z 7 3), (Zmod.of_Z 7 3).
    assert (Ha : MultiSig.AggregatePubKeys Z7.engine [Zmod.of_Z 7 1; Zmod.of_Z 7 2]
                 = Some (Zmod.of_Z 7 3)) by (vm_compute; reflexivity).
    assert (Hb : MultiSig.AggregatePubKeys Z7.engine [Zmod.of_Z 7 2; Zmod.of_Z 7 1]
                 = Some (Zmod.of_Z 7 3)) by (vm_compute; reflexivity).
    split; [exact Ha|]. split; [exact Hb|].
    exact (H2 _ _ _ _ (perm_swap _ _ _) Ha Hb).
Defined.

(** ** Counterexamples *)

(** C4 as stated fails: the same three public keys aggregate in one order
    and not in another, because the running sum [1 + 6] of the first order
    is the point at infinity of the order-7 group. *)
Lemma AggregatePubKeys_order_dependent :
  Permutation [Zmod.of_Z 7 1; Zmod.of_Z 7 6; Zmod.of_Z 7 2]
              [Zmod.of_Z 7 1; Zmod.of_Z 7 2; Zmod.of_Z 7 6]
  /\ MultiSig.AggregatePubKeys Z7.engine [Zmod.of_Z 7 1; Zmod.of_Z 7 6; Zmod.of_Z 7 2]
     = None
  /\ MultiSig.AggregatePubKeys Z7.engine [Zmod.of_Z 7 1; Zmod.of_Z 7 2; Zmod.of_Z 7 6]
     = Some (Zmod.of_Z 7 2).
Proof.
  split; [apply perm_skip, perm_swap|]. split; vm_compute; reflexivity.
Qed.
